(** * insuranceplots: the symmetric-information insurance diagram

    A shallow embedding of [symmetricinfo.py]: the economic formulas
    ([utility], [indifference_curve], [contract_possibility_line],
    [pooled_contract_line]), the module-level start-up code that builds the
    figure and the two sliders, and the Dash callback [update_plot].

    Numbers.  The program computes with Python and numpy float64 values.
    They are modelled by [num]: a real number, one of the two infinities, or
    [NaN].  Arithmetic on finite values is exact real arithmetic: rounding,
    overflow and underflow are not modelled, and zero carries no sign (it
    behaves as +0).  The non-finite cases follow IEEE 754 and the C99 [pow]
    that numpy uses, so that the places where the program leaves the reals
    (a negative base under a fractional exponent, a zero base under a
    negative one) are visible in the model.  Python's own scalar operators
    return what numpy returns wherever they return a float; where numpy
    returns an infinity or [NaN] they raise ([ZeroDivisionError],
    [OverflowError]) or return a complex number, and those outcomes are not
    modelled.

    What is proved on [num] is therefore of three kinds only: which
    expression a function computes, the structure of the arrays and of the
    figure, and the flow of the special values.  Identities and strict
    inequalities that need exact arithmetic are stated on the real formulas
    [radicand] and [utilityR], and where the float64 evaluation departs from
    them this is shown on [F64], the float64 evaluation itself at the inputs
    where IEEE 754 and C99 fix every operation. *)

From Stdlib Require Import Reals Lra Lia ZArith List String Bool.
From Stdlib Require PrimFloat.
Import ListNotations.
Open Scope R_scope.

(** ** float64 values without rounding *)

Inductive num : Type :=
| Fin (r : R)
| PInf
| NInf
| NaN.

(** [is_int y]: the real [y] is an integer. *)
Definition is_int (y : R) : bool :=
  if Req_dec_T (IZR (Zfloor y)) y then true else false.

Definition nopp (a : num) : num :=
  match a with
  | Fin x => Fin (- x)
  | PInf => NInf
  | NInf => PInf
  | NaN => NaN
  end.

Definition nadd (a b : num) : num :=
  match a, b with
  | NaN, _ | _, NaN => NaN
  | Fin x, Fin y => Fin (x + y)
  | PInf, NInf | NInf, PInf => NaN
  | PInf, _ | _, PInf => PInf
  | NInf, _ | _, NInf => NInf
  end.

Definition nsub (a b : num) : num := nadd a (nopp b).

(** An infinity [i] scaled by the sign of the finite value [y]. *)
Definition inf_times (i : num) (y : R) : num :=
  if Req_dec_T y 0 then NaN
  else if Rlt_dec 0 y then i else nopp i.

Definition nmul (a b : num) : num :=
  match a, b with
  | NaN, _ | _, NaN => NaN
  | Fin x, Fin y => Fin (x * y)
  | Fin x, i => inf_times i x
  | i, Fin y => inf_times i y
  | PInf, PInf | NInf, NInf => PInf
  | PInf, NInf | NInf, PInf => NInf
  end.

Definition ndiv (a b : num) : num :=
  match a, b with
  | NaN, _ | _, NaN => NaN
  | Fin x, Fin y =>
      if Req_dec_T y 0 then
        if Req_dec_T x 0 then NaN
        else if Rlt_dec 0 x then PInf else NInf
      else Fin (x / y)
  | Fin _, _ => Fin 0
  | i, Fin y => if Rlt_dec y 0 then nopp i else i
  | _, _ => NaN
  end.

(** The operator [**] on float64, after C99 [pow]: a positive base is raised
    with the real power function; a negative base has a power only under an
    integer exponent and gives [NaN] otherwise. *)
Definition npow (b e : num) : num :=
  match e with
  | NaN => match b with
           | Fin x => if Req_dec_T x 1 then Fin 1 else NaN
           | _ => NaN
           end
  | Fin y =>
      if Req_dec_T y 0 then Fin 1
      else
        match b with
        | NaN => NaN
        | Fin x =>
            if Rlt_dec 0 x then Fin (Rpower x y)
            else if Req_dec_T x 0 then
                   if Rlt_dec 0 y then Fin 0 else PInf
                 else if is_int y then Fin (powerRZ x (Zfloor y))
                      else NaN
        | PInf => if Rlt_dec 0 y then PInf else Fin 0
        | NInf =>
            if Rlt_dec 0 y then
              if is_int y && Z.odd (Zfloor y) then NInf else PInf
            else Fin 0
        end
  | PInf =>
      match b with
      | NaN => NaN
      | Fin x =>
          if Req_dec_T (Rabs x) 1 then Fin 1
          else if Rlt_dec (Rabs x) 1 then Fin 0 else PInf
      | _ => PInf
      end
  | NInf =>
      match b with
      | NaN => NaN
      | Fin x =>
          if Req_dec_T (Rabs x) 1 then Fin 1
          else if Rlt_dec (Rabs x) 1 then PInf else Fin 0
      | _ => Fin 0
      end
  end.

Declare Scope num_scope.
Delimit Scope num_scope with num.
Bind Scope num_scope with num.
Infix "+" := nadd : num_scope.
Infix "-" := nsub : num_scope.
Infix "*" := nmul : num_scope.
Infix "/" := ndiv : num_scope.
Infix "**" := npow (at level 30, right associativity) : num_scope.

(** Integer and decimal literals of the source. *)
Definition of_Z (z : Z) : num := Fin (IZR z).

(** ** EconomicModel: the formulas of the source *)

Definition utility (wealth_no_accident wealth_accident probability alpha : num)
  : num :=
  ((Fin 1 - probability) * wealth_no_accident ** (Fin 1 - alpha)
     / (Fin 1 - alpha)
   + probability * wealth_accident ** (Fin 1 - alpha) / (Fin 1 - alpha))%num.

(** The body of [indifference_curve] at one element of the array. *)
Definition indifference_curve_at
  (utility_level probability alpha : num) (wealth_no_accident : num) : num :=
  (((utility_level * (Fin 1 - alpha)
     - (Fin 1 - probability) * wealth_no_accident ** (Fin 1 - alpha))
    / probability) ** (Fin 1 / (Fin 1 - alpha)))%num.

(** [indifference_curve] is applied to the numpy array [x_vals]: every
    operator broadcasts over it. *)
Definition indifference_curve
  (wealth_no_accident : list num) (utility_level probability alpha : num)
  : list num :=
  map (indifference_curve_at utility_level probability alpha)
      wealth_no_accident.

(** [np.linspace(start, stop, num)] for a count that numpy accepts:
    [arange(0, num) * step + start] with [step = (stop - start) / (num - 1)],
    and the last sample overwritten by [stop]. *)
Definition linspace_sample (start delta : num) (div : nat) (i : nat) : num :=
  let step := (delta / Fin (INR div))%num in
  match div with
  | O => (Fin (INR i) * delta + start)%num
  | S _ =>
      match step with
      | Fin s => if Req_dec_T s 0
                 then (Fin (INR i) / Fin (INR div) * delta + start)%num
                 else (Fin (INR i) * step + start)%num
      | _ => (Fin (INR i) * step + start)%num
      end
  end.

Definition linspace (start stop : num) (n : nat) : list num :=
  let delta := (stop - start)%num in
  match n with
  | O => []
  | S O => [linspace_sample start delta 0 0]
  | S d => map (linspace_sample start delta d) (seq 0 d) ++ [stop]
  end.

Definition contract_possibility_line (W0 L probability : num)
  : list num * list num :=
  let coverage := linspace (Fin 0) L 100 in
  let premium := map (fun c => (probability * c)%num) coverage in
  let wealth_no_accident := map (fun pr => (W0 - pr)%num) premium in
  let wealth_accident :=
    map (fun '(pr, c) => (W0 - pr - (L - c))%num) (combine premium coverage) in
  (wealth_no_accident, wealth_accident).

Definition pooled_contract_line (W0 L p_g p_s share_high_risk : num)
  : list num * list num :=
  let expected_p :=
    (share_high_risk * p_s + (Fin 1 - share_high_risk) * p_g)%num in
  contract_possibility_line W0 L expected_p.

(** ** The formulas over the reals

    Used to state properties of the float64 functions on finite operands. *)

(** The bracketed term of [indifference_curve] over the reals. *)
Definition radicand (x u p a : R) : R :=
  (u * (1 - a) - (1 - p) * Rpower x (1 - a)) / p.

(** [utility] over the reals, for positive wealth. *)
Definition utilityR (w1 w2 p a : R) : R :=
  (1 - p) * Rpower w1 (1 - a) / (1 - a) + p * Rpower w2 (1 - a) / (1 - a).

(** ** The float64 evaluation where the standards fix it

    IEEE 754 fixes [+], [-], [*] and [/] bit for bit; they are Rocq's
    primitive binary64 operations.  The power function is rounded as the C
    library pleases, except for the cases C99 (F.9.4.4) fixes exactly:
    [pow(x, 0) = 1] and [pow(1, y) = 1].  [None] stands for a value this
    leaves open, and for the [ZeroDivisionError] of a Python scalar
    division. *)

Module F64.
Import PrimFloat.
#[local] Open Scope float_scope.

Definition pow (b e : float) : option float :=
  if e =? 0 then Some 1
  else if b =? 1 then Some 1
  else None.

Definition utility (wealth_no_accident wealth_accident probability alpha : float)
  : option float :=
  if 1 - alpha =? 0 then None
  else
    match pow wealth_no_accident (1 - alpha),
          pow wealth_accident (1 - alpha) with
    | Some q1, Some q2 =>
        Some ((1 - probability) * q1 / (1 - alpha)
              + probability * q2 / (1 - alpha))
    | _, _ => None
    end.

(** [indifference_curve] at one element of the array. *)
Definition indifference_curve_at
  (utility_level probability alpha wealth_no_accident : float) : option float :=
  if 1 - alpha =? 0 then None
  else
    match pow wealth_no_accident (1 - alpha) with
    | Some q =>
        pow ((utility_level * (1 - alpha) - (1 - probability) * q)
             / probability)
            (1 / (1 - alpha))
    | None => None
    end.

End F64.

(** ** Plotly traces, the figure and the Dash sliders *)

Module go.
(** [go.Scatter]: the properties the program sets. *)
Record Scatter : Type := mkScatter {
  x : list num;
  y : list num;
  mode : string;
  name : string
}.

Definition set_y (t : Scatter) (ys : list num) : Scatter :=
  mkScatter (x t) ys (mode t) (name t).

(** [go.Figure]: the tuple [fig.data] and the fixed axis ranges. *)
Record Figure : Type := mkFigure {
  data : list Scatter;
  xaxis_range : num * num;
  yaxis_range : num * num
}.
End go.

Module dcc.
Record Slider : Type := mkSlider {
  id : string;
  min : num;
  max : num;
  value : num;
  step : num
}.
End dcc.

(** Python indexing of a sequence of length [len]: a negative index counts
    from the end, and an index outside [-len, len) raises [IndexError]. *)
Definition py_index (len : nat) (i : Z) : option nat :=
  if ((0 <=? i) && (i <? Z.of_nat len))%Z then Some (Z.to_nat i)
  else if ((- Z.of_nat len <=? i) && (i <? 0))%Z
       then Some (Z.to_nat (Z.of_nat len + i))
       else None.

Fixpoint update_nth {A : Type} (f : A -> A) (n : nat) (l : list A) : list A :=
  match l, n with
  | [], _ => []
  | a :: l', O => f a :: l'
  | a :: l', S n' => a :: update_nth f n' l'
  end.

(** [data[i].y = ys]; [None] stands for the [IndexError]. *)
Definition assign_y (d : list go.Scatter) (i : Z) (ys : list num)
  : option (list go.Scatter) :=
  match py_index (List.length d) i with
  | Some k => Some (update_nth (fun t => go.set_y t ys) k d)
  | None => None
  end.

(** Comparison [<] on float64 and the clamp of a value into a range. *)
Definition num_lt (a b : num) : bool :=
  match a, b with
  | Fin u, Fin v => if Rlt_dec u v then true else false
  | NInf, Fin _ | NInf, PInf | Fin _, PInf => true
  | _, _ => false
  end.

Definition clamp (lo hi v : num) : num :=
  if num_lt v lo then lo else if num_lt hi v then hi else v.

(** ** The module-level parameters *)

(** [W0] is an integer: it is also the number of samples of the x grid.
    The other constants are only used as numbers. *)
Record Params : Type := mkParams {
  W0 : Z;
  L : R;
  p_s : R;
  p_g : R;
  alpha : R;
  share_high_risk : R
}.

(** The values the module defines. *)
Definition default_params : Params :=
  mkParams 100 40 (5 / 10) (25 / 100) 3 (5 / 10).

(** The invariant the specification puts on the parameters. *)
Definition valid_params (P : Params) : Prop :=
  0 < p_g P /\ p_g P < p_s P /\ p_s P < 1 /\
  0 < L P /\ L P < IZR (W0 P) /\ 1 < alpha P /\
  0 <= share_high_risk P <= 1.

Section Program.
Variable P : Params.

(** The module-level constants as float64 values. *)
#[local] Abbreviation W0' := (of_Z (W0 P)).
#[local] Abbreviation L' := (Fin (L P)).
#[local] Abbreviation p_s' := (Fin (p_s P)).
#[local] Abbreviation p_g' := (Fin (p_g P)).
#[local] Abbreviation alpha' := (Fin (alpha P)).

(** *** Generate initial data *)

Definition x_vals : list num :=
  linspace (Fin 0) (of_Z (W0 P + 50)) (Z.to_nat (W0 P + 50)).

Definition init_utility_s : num := utility W0' (W0' - L') p_s' alpha'.
Definition init_utility_g : num := utility W0' (W0' - L') p_g' alpha'.
Definition max_utility_s : num :=
  utility (W0' - p_g' * L') (W0' - p_s' * L') (Fin 0) alpha'.
Definition max_utility_g : num :=
  utility (W0' - p_g' * L') (W0' - p_s' * L') (Fin 0) alpha'.

Definition indifference_curve_s : list num :=
  indifference_curve x_vals init_utility_s p_s' alpha'.
Definition indifference_curve_g : list num :=
  indifference_curve x_vals init_utility_g p_g' alpha'.

Definition contract_line_s : list num * list num :=
  contract_possibility_line W0' L' p_s'.
Definition contract_line_g : list num * list num :=
  contract_possibility_line W0' L' p_g'.
Definition pooled_line : list num * list num :=
  pooled_contract_line W0' L' p_g' p_s' (Fin (share_high_risk P)).

Definition full_insurance_s : num * num :=
  ((W0' - p_s' * L')%num, (W0' - p_s' * L')%num).
Definition full_insurance_g : num * num :=
  ((W0' - p_g' * L')%num, (W0' - p_g' * L')%num).

(** *** Static figure setup: the nine traces in the order they are added *)

Definition fig : go.Figure :=
  go.mkFigure
    [ go.mkScatter (fst contract_line_s) (snd contract_line_s)
        "lines" "Contract Line (High Risk)";
      go.mkScatter (fst contract_line_g) (snd contract_line_g)
        "lines" "Contract Line (Low Risk)";
      go.mkScatter (fst pooled_line) (snd pooled_line)
        "lines" "Pooled Contract Line";
      go.mkScatter [Fin 0; Fin 150] [Fin 0; Fin 150]
        "lines" "Certainty Line";
      go.mkScatter [fst full_insurance_s] [snd full_insurance_s]
        "markers" "Full Insurance (Bad Type)";
      go.mkScatter [fst full_insurance_g] [snd full_insurance_g]
        "markers" "Full Insurance (Good Type)";
      go.mkScatter [W0'] [(W0' - L')%num]
        "markers" "A (No insurance)";
      go.mkScatter x_vals indifference_curve_s
        "lines" "I_s (High Risk)";
      go.mkScatter x_vals indifference_curve_g
        "lines" "I_g (Low Risk)" ]
    (Fin 50, Fin 130) (Fin 50, Fin 130).

(** *** The two sliders of [app.layout] *)

Definition s_slider : dcc.Slider :=
  dcc.mkSlider "s-slider"
    init_utility_s
    (max_utility_s + Fin (5 / 10) * (max_utility_s - init_utility_s))%num
    init_utility_s
    ((max_utility_s + Fin (5 / 10) * (max_utility_s - init_utility_s)
      - init_utility_s) / Fin 100)%num.

Definition g_slider : dcc.Slider :=
  dcc.mkSlider "g-slider"
    init_utility_g
    (max_utility_g + Fin (5 / 10) * (max_utility_g - init_utility_g))%num
    init_utility_g
    ((max_utility_g + Fin (5 / 10) * (max_utility_g - init_utility_g)
      - init_utility_g) / Fin 100)%num.

(** Importing the module runs the code above.  [np.linspace] raises
    [ValueError] for a negative number of samples; [None] stands for it.
    The exceptions Python's scalar [**] and [/] can raise while the utility
    levels are computed ([OverflowError], [ZeroDivisionError]) depend on the
    float64 range and are not modelled: [Some fig] says what the figure is
    when the import succeeds. *)
Definition startup : option go.Figure :=
  if (W0 P + 50 <? 0)%Z then None else Some fig.

(** *** Callback to update the plot

    The figure is a module-level object that the callback mutates and
    returns: the state is passed in and out explicitly.  [None] stands for
    the [IndexError] of [fig.data[-2]] on a figure with fewer than two
    traces. *)
Definition update_plot (f : go.Figure) (new_utility_s new_utility_g : num)
  : option go.Figure :=
  let updated_indifference_curve_s :=
    indifference_curve x_vals new_utility_s p_s' alpha' in
  let updated_indifference_curve_g :=
    indifference_curve x_vals new_utility_g p_g' alpha' in
  match assign_y (go.data f) (-2) updated_indifference_curve_s with
  | None => None
  | Some d1 =>
      match assign_y d1 (-1) updated_indifference_curve_g with
      | None => None
      | Some d2 =>
          Some (go.mkFigure d2 (go.xaxis_range f) (go.yaxis_range f))
      end
  end.

(** *** The Dash session

    Dash keeps the current [value] of each slider in the page and calls
    the callback with the values of both [Input]s whenever one of them
    changes. *)
Inductive slider_id : Type := s_slider_id | g_slider_id.

Record Session : Type := mkSession {
  scene : go.Figure;
  s_value : num;
  g_value : num
}.

Definition session0 : Session :=
  mkSession fig (dcc.value s_slider) (dcc.value g_slider).

Definition on_slider (st : Session) (which : slider_id) (new_value : num)
  : option Session :=
  let s := match which with s_slider_id => new_value | _ => s_value st end in
  let g := match which with g_slider_id => new_value | _ => g_value st end in
  match update_plot (scene st) s g with
  | Some f => Some (mkSession f s g)
  | None => None
  end.

(** Sessions reached from start-up by slider events. *)
Inductive reachable : Session -> Prop :=
| reach_start : startup = Some fig -> reachable session0
| reach_event st which v st' :
    reachable st -> on_slider st which v = Some st' -> reachable st'.

(** *** The controller as the specification words it

    [onSliderChange] first clamps the new value into the slider's
    configured range and then recomputes that slider's curve. *)
Definition slider_of (which : slider_id) : dcc.Slider :=
  match which with s_slider_id => s_slider | g_slider_id => g_slider end.

Definition onSliderChange_spec
  (st : Session) (which : slider_id) (new_value : num) : option Session :=
  let sl := slider_of which in
  on_slider st which (clamp (dcc.min sl) (dcc.max sl) new_value).

(** *** The scene as a function of the two slider values *)

(** The position in [fig.data] of the trace a slider drives: [fig.data[-2]]
    and [fig.data[-1]] of the nine traces. *)
Definition slot (which : slider_id) : nat :=
  match which with s_slider_id => 7%nat | g_slider_id => 8%nat end.

(** The seven static traces, and the figure as a function of the two
    utility levels its curves show. *)
Definition static_traces : list go.Scatter := firstn 7 (go.data fig).

Definition scene_of (s g : num) : go.Figure :=
  go.mkFigure
    (static_traces ++
     [ go.mkScatter x_vals
         (indifference_curve x_vals s (Fin (p_s P)) (Fin (alpha P)))
         "lines" "I_s (High Risk)";
       go.mkScatter x_vals
         (indifference_curve x_vals g (Fin (p_g P)) (Fin (alpha P)))
         "lines" "I_g (Low Risk)" ])
    (Fin 50, Fin 130) (Fin 50, Fin 130).
End Program.

(** * Properties *)

(** ** Arithmetic on finite values *)

Lemma nsub_fin (a b : R) : (Fin a - Fin b)%num = Fin (a - b).
Proof. reflexivity. Qed.

Lemma nadd_fin (a b : R) : (Fin a + Fin b)%num = Fin (a + b).
Proof. reflexivity. Qed.

Lemma nmul_fin (a b : R) : (Fin a * Fin b)%num = Fin (a * b).
Proof. reflexivity. Qed.

(** Folds every operation whose operands are explicitly finite. *)
Ltac fin_arith :=
  repeat (rewrite nmul_fin || rewrite nsub_fin || rewrite nadd_fin).

Lemma ndiv_fin (a b : R) : b <> 0 -> (Fin a / Fin b)%num = Fin (a / b).
Proof.
  intros Hb. unfold ndiv. destruct (Req_dec_T b 0) as [E | _]; [contradiction | reflexivity].
Qed.

Lemma npow_pos (x y : R) :
  0 < x -> y <> 0 -> (Fin x ** Fin y)%num = Fin (Rpower x y).
Proof.
  intros Hx Hy. unfold npow.
  destruct (Req_dec_T y 0) as [E | _]; [contradiction |].
  destruct (Rlt_dec 0 x) as [_ | N]; [reflexivity | contradiction].
Qed.

Lemma npow_neg (x y : R) :
  x < 0 -> y <> 0 ->
  (Fin x ** Fin y)%num
  = if is_int y then Fin (powerRZ x (Zfloor y)) else NaN.
Proof.
  intros Hx Hy. unfold npow.
  destruct (Req_dec_T y 0) as [E | _]; [contradiction |].
  destruct (Rlt_dec 0 x) as [H | _]; [lra |].
  destruct (Req_dec_T x 0) as [H | _]; [lra | reflexivity].
Qed.

Lemma is_int_true (y : R) : is_int y = true <-> exists z : Z, y = IZR z.
Proof.
  unfold is_int. destruct (Req_dec_T (IZR (Zfloor y)) y) as [E | N]; split.
  - intros _. exists (Zfloor y). symmetry. exact E.
  - reflexivity.
  - discriminate.
  - intros [z ->]. exfalso. apply N. now rewrite ZfloorZ.
Qed.

(** A real strictly between two consecutive integers is not an integer. *)
Lemma is_int_between (y : R) (z : Z) :
  IZR z < y < IZR (z + 1) -> is_int y = false.
Proof.
  intros [Hlo Hhi]. destruct (is_int y) eqn:E; [| reflexivity].
  apply is_int_true in E. destruct E as [k ->].
  apply lt_IZR in Hlo, Hhi. lia.
Qed.

(** ** The power function under a negative exponent *)

Lemma Rpower_pos (x y : R) : 0 < Rpower x y.
Proof. unfold Rpower. apply exp_pos. Qed.

Lemma Rpower_neg2 (x e : R) : 0 < x -> e = -2 -> Rpower x e = / (x * x).
Proof.
  intros Hx ->. replace (-2) with (- (1 + 1)) by lra.
  now rewrite Rpower_Ropp, Rpower_plus, Rpower_1.
Qed.

Lemma Rpower_neg1 (x e : R) : 0 < x -> e = -1 -> Rpower x e = / x.
Proof.
  intros Hx ->. replace (-1) with (- (1)) by lra.
  now rewrite Rpower_Ropp, Rpower_1.
Qed.

(** Undoing the exponent: [(r ** (1/b)) ** b = r]. *)
Lemma Rpower_inv_exponent (r b : R) :
  0 < r -> b <> 0 -> Rpower (Rpower r (1 / b)) b = r.
Proof.
  intros Hr Hb. rewrite Rpower_mult.
  replace (1 / b * b) with 1 by (field; exact Hb).
  now apply Rpower_1.
Qed.

(** [x ** b] decreases in [x] when [b < 0]. *)
Lemma Rpower_decreasing (a c b : R) :
  b < 0 -> 0 < a -> a < c -> Rpower c b < Rpower a b.
Proof.
  intros Hb Ha Hac. unfold Rpower. apply exp_increasing.
  assert (Hln : ln a < ln c) by (apply ln_increasing; assumption).
  nra.
Qed.

Lemma ln_lt_minus_1 (t : R) : 0 < t -> t <> 1 -> ln t < t - 1.
Proof.
  intros Ht Hne.
  assert (Hl : ln t <> 0) by (apply ln_neq_0; assumption).
  pose proof (exp_ineq1 (ln t) Hl) as H.
  rewrite exp_ln in H by assumption. lra.
Qed.

(** Bernoulli's inequality for a negative real exponent. *)
Lemma Rpower_bernoulli (t b : R) :
  0 < t -> t <> 1 -> b < 0 -> 1 + b * (t - 1) < Rpower t b.
Proof.
  intros Ht Hne Hb.
  pose proof (ln_lt_minus_1 t Ht Hne) as Hln.
  assert (Hl : ln t <> 0) by (apply ln_neq_0; assumption).
  assert (Hnz : b * ln t <> 0) by (apply Rmult_integral_contrapositive_currified; lra).
  pose proof (exp_ineq1 (b * ln t) Hnz) as He.
  unfold Rpower. nra.
Qed.

(** Strict convexity of [x ** b], [b < 0], on the positive reals. *)
Lemma Rpower_strictly_convex (a c p b : R) :
  0 < a -> 0 < c -> a <> c -> 0 < p < 1 -> b < 0 ->
  Rpower ((1 - p) * a + p * c) b < (1 - p) * Rpower a b + p * Rpower c b.
Proof.
  intros Ha Hc Hne [Hp0 Hp1] Hb.
  set (m := (1 - p) * a + p * c).
  assert (Hm : 0 < m) by (unfold m; nra).
  assert (Ham : a / m <> 1).
  { intros E. apply Hne. apply (Rmult_eq_compat_r m) in E.
    unfold Rdiv in E. rewrite Rmult_assoc, Rinv_l, Rmult_1_r, Rmult_1_l in E by lra.
    unfold m in E. nra. }
  assert (Hcm : c / m <> 1).
  { intros E. apply Hne. apply (Rmult_eq_compat_r m) in E.
    unfold Rdiv in E. rewrite Rmult_assoc, Rinv_l, Rmult_1_r, Rmult_1_l in E by lra.
    unfold m in E. nra. }
  assert (Hapos : 0 < a / m) by (apply Rdiv_lt_0_compat; assumption).
  assert (Hcpos : 0 < c / m) by (apply Rdiv_lt_0_compat; assumption).
  pose proof (Rpower_bernoulli (a / m) b Hapos Ham Hb) as Ba.
  pose proof (Rpower_bernoulli (c / m) b Hcpos Hcm Hb) as Bc.
  assert (Ea : Rpower a b = Rpower m b * Rpower (a / m) b).
  { rewrite Rpower_mult_distr by assumption. f_equal. field. lra. }
  assert (Ec : Rpower c b = Rpower m b * Rpower (c / m) b).
  { rewrite Rpower_mult_distr by assumption. f_equal. field. lra. }
  rewrite Ea, Ec.
  pose proof (Rpower_pos m b) as Hmb.
  assert (Hsum : (1 - p) * (a / m) + p * (c / m) = 1).
  { unfold m. field. fold m. lra. }
  assert (Hone : 1 < (1 - p) * Rpower (a / m) b + p * Rpower (c / m) b) by nra.
  nra.
Qed.

(** ** The indifference curve at a point *)

Lemma indifference_curve_at_radicand (x u p a : R) :
  0 < x -> p <> 0 -> a <> 1 ->
  indifference_curve_at (Fin u) (Fin p) (Fin a) (Fin x)
  = (Fin (radicand x u p a) ** Fin (1 / (1 - a)))%num.
Proof.
  intros Hx Hp Ha. unfold indifference_curve_at, radicand.
  rewrite !nsub_fin, npow_pos by lra.
  rewrite !nmul_fin, nsub_fin, !ndiv_fin by lra.
  reflexivity.
Qed.

Lemma inv_exponent_nonzero (a : R) : 1 < a -> 1 / (1 - a) <> 0.
Proof.
  intros Ha. unfold Rdiv. rewrite Rmult_1_l.
  apply Rinv_neq_0_compat. lra.
Qed.

(** On positive wealth [utility] is the real formula. *)
Lemma utility_utilityR (w1 w2 p a : R) :
  0 < w1 -> 0 < w2 -> a <> 1 ->
  utility (Fin w1) (Fin w2) (Fin p) (Fin a) = Fin (utilityR w1 w2 p a).
Proof.
  intros H1 H2 Ha. unfold utility, utilityR.
  rewrite !nsub_fin, !npow_pos by lra.
  rewrite !nmul_fin, !ndiv_fin by lra.
  reflexivity.
Qed.

Lemma indifference_curve_nth (xs : list num) (i : nat) (x u p a : num) :
  nth_error xs i = Some x ->
  nth_error (indifference_curve xs u p a) i
  = Some (indifference_curve_at u p a x).
Proof.
  intros H. unfold indifference_curve. now rewrite nth_error_map, H.
Qed.

Lemma indifference_curve_at_pos (x u p a : R) :
  0 < x -> 0 < p < 1 -> 1 < a -> 0 < radicand x u p a ->
  indifference_curve_at (Fin u) (Fin p) (Fin a) (Fin x)
  = Fin (Rpower (radicand x u p a) (1 / (1 - a))).
Proof.
  intros Hx [Hp0 Hp1] Ha Hr.
  rewrite indifference_curve_at_radicand by lra.
  apply npow_pos; [exact Hr | apply inv_exponent_nonzero; exact Ha].
Qed.

(** The real formula of [indifference_curve] solves the real formula of
    [utility] for the accident wealth. *)
Lemma utilityR_radicand (x u p a : R) :
  0 < p -> 1 < a -> 0 < radicand x u p a ->
  utilityR x (Rpower (radicand x u p a) (1 / (1 - a))) p a = u.
Proof.
  intros Hp Ha Hr. unfold utilityR.
  rewrite Rpower_inv_exponent by lra.
  unfold radicand. field. lra.
Qed.



Section InverseInFloat64.
Import PrimFloat.
#[local] Open Scope float_scope.


End InverseInFloat64.

Lemma is_int_zero : is_int 0 = true.
Proof. apply is_int_true. now exists 0%Z. Qed.

(** The bracketed term of [indifference_curve] on finite operands. *)
Lemma radicand_expression (x u p a : R) :
  0 < x -> p <> 0 -> a <> 1 ->
  ((Fin u * (Fin 1 - Fin a) - (Fin 1 - Fin p) * Fin x ** (Fin 1 - Fin a))
   / Fin p)%num
  = Fin (radicand x u p a).
Proof.
  intros Hx Hp Ha. unfold radicand.
  rewrite !nsub_fin, npow_pos by lra.
  rewrite !nmul_fin, nsub_fin, ndiv_fin by lra.
  reflexivity.
Qed.


Lemma is_int_default_exponent : is_int (1 / (1 - 3)) = false.
Proof. apply (is_int_between _ (-1)). simpl. lra. Qed.



(** ** No-insurance utility against the efficient-allocation utility *)

Lemma utilityR_no_insurance_lt (W l pg ps a p : R) :
  0 < pg -> pg < ps -> ps < 1 -> 0 < l -> l < W -> 1 < a ->
  p = pg \/ p = ps ->
  utilityR W (W - l) p a < utilityR (W - pg * l) (W - ps * l) 0 a.
Proof.
  intros Hpg Hps Hps1 Hl HW Ha Hp. unfold utilityR.
  set (b := 1 - a). assert (Hb : b < 0) by (unfold b; lra).
  assert (Hp01 : 0 < p < 1) by (destruct Hp; subst p; lra).
  assert (Hconv :
    Rpower (W - p * l) b < (1 - p) * Rpower W b + p * Rpower (W - l) b).
  { replace (W - p * l) with ((1 - p) * W + p * (W - l)) by ring.
    apply Rpower_strictly_convex; lra. }
  assert (Hle : Rpower (W - pg * l) b <= Rpower (W - p * l) b).
  { destruct Hp as [-> | ->]; [lra |].
    left. apply Rpower_decreasing; nra. }
  assert (Hinv : / b < 0) by (apply Rinv_lt_0_compat; exact Hb).
  unfold Rdiv.
  set (S := (1 - p) * Rpower W b + p * Rpower (W - l) b) in *.
  set (G := Rpower (W - pg * l) b) in *.
  replace ((1 - p) * Rpower W b * / b + p * Rpower (W - l) b * / b)
    with (S * / b) by (unfold S; ring).
  replace ((1 - 0) * G * / b + 0 * Rpower (W - ps * l) b * / b)
    with (G * / b) by ring.
  assert (HSG : G < S) by lra.
  nra.
Qed.

Section ProgramFacts.
Variable P : Params.
Hypothesis HP : valid_params P.

Lemma init_utility_s_fin :
  init_utility_s P
  = Fin (utilityR (IZR (W0 P)) (IZR (W0 P) - L P) (p_s P) (alpha P)).
Proof.
  destruct HP as (? & ? & ? & ? & ? & ? & ?).
  unfold init_utility_s, of_Z. rewrite nsub_fin.
  apply utility_utilityR; lra.
Qed.

Lemma init_utility_g_fin :
  init_utility_g P
  = Fin (utilityR (IZR (W0 P)) (IZR (W0 P) - L P) (p_g P) (alpha P)).
Proof.
  destruct HP as (? & ? & ? & ? & ? & ? & ?).
  unfold init_utility_g, of_Z. rewrite nsub_fin.
  apply utility_utilityR; lra.
Qed.

Lemma max_utility_s_fin :
  max_utility_s P
  = Fin (utilityR (IZR (W0 P) - p_g P * L P) (IZR (W0 P) - p_s P * L P)
           0 (alpha P)).
Proof.
  destruct HP as (? & ? & ? & ? & ? & ? & ?).
  unfold max_utility_s, of_Z. rewrite !nmul_fin, !nsub_fin.
  apply utility_utilityR; nra.
Qed.

Lemma max_utility_g_s : max_utility_g P = max_utility_s P.
Proof. reflexivity. Qed.

Lemma init_lt_max_s :
  utilityR (IZR (W0 P)) (IZR (W0 P) - L P) (p_s P) (alpha P)
  < utilityR (IZR (W0 P) - p_g P * L P) (IZR (W0 P) - p_s P * L P)
      0 (alpha P).
Proof.
  destruct HP as (? & ? & ? & ? & ? & ? & ?).
  apply utilityR_no_insurance_lt; auto.
Qed.

Lemma init_lt_max_g :
  utilityR (IZR (W0 P)) (IZR (W0 P) - L P) (p_g P) (alpha P)
  < utilityR (IZR (W0 P) - p_g P * L P) (IZR (W0 P) - p_s P * L P)
      0 (alpha P).
Proof.
  destruct HP as (? & ? & ? & ? & ? & ? & ?).
  apply utilityR_no_insurance_lt; auto.
Qed.

End ProgramFacts.

Lemma default_params_valid : valid_params default_params.
Proof. unfold valid_params, default_params; simpl. lra. Qed.

(** Over exact arithmetic the slider range is not degenerate for any valid
    parameter set. *)
Lemma slider_range_exact (P : Params) :
  valid_params P ->
  (forall p : R, p = p_g P \/ p = p_s P ->
     exists lo hi : R,
       utility (of_Z (W0 P)) (of_Z (W0 P) - Fin (L P)) (Fin p) (Fin (alpha P))
       = Fin lo /\
       utility (of_Z (W0 P) - Fin (p_g P) * Fin (L P))
               (of_Z (W0 P) - Fin (p_s P) * Fin (L P))
               (Fin 0) (Fin (alpha P))
       = Fin hi /\
       lo < hi) /\
  (forall sl : dcc.Slider, sl = s_slider P \/ sl = g_slider P ->
     exists lo hi : R,
       dcc.min sl = Fin lo /\ dcc.max sl = Fin hi /\ lo < hi).
Proof.
  intros HP. split.
  - intros p Hp.
    exists (utilityR (IZR (W0 P)) (IZR (W0 P) - L P) p (alpha P)).
    exists (utilityR (IZR (W0 P) - p_g P * L P) (IZR (W0 P) - p_s P * L P)
              0 (alpha P)).
    split; [| split].
    + destruct Hp as [-> | ->];
        [apply (init_utility_g_fin P HP) | apply (init_utility_s_fin P HP)].
    + apply (max_utility_s_fin P HP).
    + destruct Hp as [-> | ->];
        [apply (init_lt_max_g P HP) | apply (init_lt_max_s P HP)].
  - intros sl [-> | ->]; unfold s_slider, g_slider, dcc.min, dcc.max.
    + rewrite (init_utility_s_fin P HP), (max_utility_s_fin P HP).
      rewrite nsub_fin, nmul_fin, nadd_fin.
      do 2 eexists. split; [reflexivity |]. split; [reflexivity |].
      pose proof (init_lt_max_s P HP). lra.
    + rewrite max_utility_g_s.
      rewrite (init_utility_g_fin P HP), (max_utility_s_fin P HP).
      rewrite nsub_fin, nmul_fin, nadd_fin.
      do 2 eexists. split; [reflexivity |]. split; [reflexivity |].
      pose proof (init_lt_max_g P HP). lra.
Qed.

(** C6, as the code has it.  For the module's parameter values and [p]
    either accident probability, [utility(W0, W0 - L, p, alpha)] is a finite
    number strictly below [utility(W0 - p_g L, W0 - p_s L, 0, alpha)], and the
    [max] of each slider is above its [min].  For every parameter set
    satisfying the invariants the same strict inequality holds between the
    real utility formulas. *)
Theorem slider_range_not_degenerate :
  (forall p : R,
     p = p_g default_params \/ p = p_s default_params ->
     exists lo hi : R,
       utility (of_Z (W0 default_params))
               (of_Z (W0 default_params) - Fin (L default_params))
               (Fin p) (Fin (alpha default_params))
       = Fin lo /\
       utility (of_Z (W0 default_params)
                - Fin (p_g default_params) * Fin (L default_params))
               (of_Z (W0 default_params)
                - Fin (p_s default_params) * Fin (L default_params))
               (Fin 0) (Fin (alpha default_params))
       = Fin hi /\
       lo < hi) /\
  (forall sl : dcc.Slider,
     sl = s_slider default_params \/ sl = g_slider default_params ->
     exists lo hi : R,
       dcc.min sl = Fin lo /\ dcc.max sl = Fin hi /\ lo < hi) /\
  (forall (P : Params) (p : R),
     valid_params P ->
     p = p_g P \/ p = p_s P ->
     utilityR (IZR (W0 P)) (IZR (W0 P) - L P) p (alpha P)
     < utilityR (IZR (W0 P) - p_g P * L P) (IZR (W0 P) - p_s P * L P)
         0 (alpha P)).
Proof.
  destruct (slider_range_exact default_params default_params_valid)
    as [Hu Hsl].
  split; [exact Hu |]. split; [exact Hsl |].
  intros P p HP [-> | ->];
    [apply (init_lt_max_g P HP) | apply (init_lt_max_s P HP)].
Qed.

Lemma slider_range_not_degenerate_witness :
  exists lo hi : R,
    dcc.min (s_slider default_params) = Fin lo /\
    dcc.max (s_slider default_params) = Fin hi /\ lo < hi.
Proof.
  apply (proj1 (proj2 slider_range_not_degenerate)).
  left. reflexivity.
Defined.

Section RangeInFloat64.
Import PrimFloat.
#[local] Open Scope float_scope.

(** C6 as stated fails in float64: the parameters [W0 = 1], [L = 1e-20],
    [p_s = 0.5], [p_g = 0.25], [alpha = 3] satisfy the invariants, every
    wealth rounds to 1, every power has base 1, and the two no-insurance
    utilities and the efficient-allocation utility are all [-0.5]: each
    slider would get [max = min]. *)
Lemma slider_range_degenerate_in_float64 :
  let W0 := 1 in
  let L := 0x1.79ca10c924223p-67 in
  let p_s := 0.5 in
  let p_g := 0.25 in
  let alpha := 3 in
  (0 <? p_g) = true /\ (p_g <? p_s) = true /\ (p_s <? 1) = true /\
  (0 <? L) = true /\ (L <? W0) = true /\ (1 <? alpha) = true /\
  F64.utility W0 (W0 - L) p_s alpha = Some (-0.5) /\
  F64.utility W0 (W0 - L) p_g alpha = Some (-0.5) /\
  F64.utility (W0 - p_g * L) (W0 - p_s * L) 0 alpha = Some (-0.5).
Proof. vm_compute. repeat split. Qed.

End RangeInFloat64.

(** ** The sample grid of [np.linspace] *)

Lemma linspace_length (start stop : num) (n : nat) :
  List.length (linspace start stop n) = n.
Proof.
  destruct n as [| [| d]]; try reflexivity.
  unfold linspace. rewrite length_app, length_map, length_seq. simpl. lia.
Qed.

Lemma INR_S_nonzero (d : nat) : INR (S d) <> 0.
Proof. apply not_0_INR. discriminate. Qed.

Lemma linspace_sample_fin (a delta : R) (d i : nat) :
  linspace_sample (Fin a) (Fin delta) (S d) i
  = Fin (INR i * (delta / INR (S d)) + a).
Proof.
  pose proof (INR_S_nonzero d) as Hd.
  unfold linspace_sample. rewrite ndiv_fin by exact Hd.
  destruct (Req_dec_T (delta / INR (S d)) 0) as [Hz | Hnz].
  - rewrite ndiv_fin by exact Hd. rewrite nmul_fin, nadd_fin.
    f_equal. unfold Rdiv in *. rewrite Rmult_assoc, (Rmult_comm (/ _) delta).
    reflexivity.
  - reflexivity.
Qed.

(** Every sample but the last is [start + i * step]. *)
Lemma linspace_nth_inner (a b : R) (d i : nat) :
  (i < S d)%nat ->
  nth_error (linspace (Fin a) (Fin b) (S (S d))) i
  = Some (Fin (INR i * ((b - a) / INR (S d)) + a)).
Proof.
  intros Hi. unfold linspace.
  rewrite nth_error_app1 by (rewrite length_map, length_seq; exact Hi).
  rewrite nth_error_map, nth_error_seq.
  apply Nat.ltb_lt in Hi. rewrite Hi, Nat.add_0_l.
  cbn [option_map]. rewrite nsub_fin, linspace_sample_fin. reflexivity.
Qed.

(** The last sample is [stop] itself. *)
Lemma linspace_nth_last (start stop : num) (d : nat) :
  nth_error (linspace start stop (S (S d))) (S d) = Some stop.
Proof.
  unfold linspace.
  rewrite nth_error_app2 by (rewrite length_map, length_seq; lia).
  rewrite length_map, length_seq, Nat.sub_diag. reflexivity.
Qed.

(** On exact reals the overwritten last sample is on the same grid. *)
Lemma linspace_nth (a b : R) (d i : nat) :
  (i <= S d)%nat ->
  nth_error (linspace (Fin a) (Fin b) (S (S d))) i
  = Some (Fin (INR i * ((b - a) / INR (S d)) + a)).
Proof.
  intros Hi. destruct (Nat.eq_dec i (S d)) as [-> | Hne].
  - rewrite linspace_nth_last. do 2 f_equal.
    field. apply INR_S_nonzero.
  - apply linspace_nth_inner. lia.
Qed.

(** ** The contract-possibility line *)

Lemma map_combine_map {A B C : Type} (f : A -> B) (g : B -> A -> C)
  (l : list A) :
  map (fun '(b, a) => g b a) (combine (map f l) l)
  = map (fun a => g (f a) a) l.
Proof.
  induction l as [| a l IH]; simpl; [reflexivity | now rewrite IH].
Qed.

(** Both arrays are maps over the coverage grid. *)
Lemma contract_possibility_line_maps (W0 L probability : num) :
  contract_possibility_line W0 L probability
  = (map (fun c => (W0 - probability * c)%num) (linspace (Fin 0) L 100),
     map (fun c => (W0 - probability * c - (L - c))%num)
         (linspace (Fin 0) L 100)).
Proof.
  unfold contract_possibility_line. cbv zeta.
  rewrite map_map.
  rewrite (map_combine_map (fun c => (probability * c)%num)
             (fun pr c => (W0 - pr - (L - c))%num)).
  reflexivity.
Qed.

Lemma INR_99 : INR 99 = 99.
Proof. rewrite INR_IZR_INZ. reflexivity. Qed.

Lemma coverage_nth (l : R) (i : nat) :
  (i < 100)%nat ->
  nth_error (linspace (Fin 0) (Fin l) 100) i = Some (Fin (INR i * (l / 99))).
Proof.
  intros Hi. rewrite (linspace_nth 0 l 98 i) by lia.
  rewrite INR_99. do 2 f_equal. lra.
Qed.

Lemma contract_possibility_line_nth (w l p : R) (i : nat) :
  (i < 100)%nat ->
  nth_error (fst (contract_possibility_line (Fin w) (Fin l) (Fin p))) i
  = Some (Fin (w - p * (INR i * (l / 99)))) /\
  nth_error (snd (contract_possibility_line (Fin w) (Fin l) (Fin p))) i
  = Some (Fin (w - p * (INR i * (l / 99)) - (l - INR i * (l / 99)))).
Proof.
  intros Hi. rewrite contract_possibility_line_maps. cbn [fst snd].
  rewrite !nth_error_map, coverage_nth by exact Hi.
  split; reflexivity.
Qed.

Lemma contract_possibility_line_first (w l p : R) :
  nth_error (fst (contract_possibility_line (Fin w) (Fin l) (Fin p))) 0
  = Some (Fin w) /\
  nth_error (snd (contract_possibility_line (Fin w) (Fin l) (Fin p))) 0
  = Some (Fin (w - l)).
Proof.
  destruct (contract_possibility_line_nth w l p 0 ltac:(lia)) as [-> ->].
  split; do 2 f_equal; simpl INR; lra.
Qed.

Lemma contract_possibility_line_last (w l p : R) :
  nth_error (fst (contract_possibility_line (Fin w) (Fin l) (Fin p))) 99
  = Some (Fin (w - p * l)) /\
  nth_error (snd (contract_possibility_line (Fin w) (Fin l) (Fin p))) 99
  = Some (Fin (w - p * l)).
Proof.
  destruct (contract_possibility_line_nth w l p 99 ltac:(lia)) as [-> ->].
  rewrite INR_99. split; do 2 f_equal; lra.
Qed.

(** C5, as the code has it.  The two arrays are [W0 - p*c] and
    [W0 - p*c - (L - c)] at the 100 coverage levels [c = i * L / 99],
    [i = 0 .. 99]; for [W0 = 100], [L = 40], [p = 0.5] the point at [c = 0]
    is (100, 60) and the point at [c = 40] is (80, 80). *)
Theorem contract_possibility_line_pointwise :
  (forall (w l p : R) (i : nat),
     (i < 100)%nat ->
     let c := INR i * (l / 99) in
     nth_error (fst (contract_possibility_line (Fin w) (Fin l) (Fin p))) i
     = Some (Fin (w - p * c)) /\
     nth_error (snd (contract_possibility_line (Fin w) (Fin l) (Fin p))) i
     = Some (Fin (w - p * c - (l - c)))) /\
  (let line := contract_possibility_line (Fin 100) (Fin 40) (Fin (5 / 10)) in
   nth_error (linspace (Fin 0) (Fin 40) 100) 0 = Some (Fin 0) /\
   nth_error (fst line) 0 = Some (Fin 100) /\
   nth_error (snd line) 0 = Some (Fin 60) /\
   nth_error (linspace (Fin 0) (Fin 40) 100) 99 = Some (Fin 40) /\
   nth_error (fst line) 99 = Some (Fin 80) /\
   nth_error (snd line) 99 = Some (Fin 80)).
Proof.
  split.
  - intros w l p i Hi c. apply contract_possibility_line_nth. exact Hi.
  - cbv zeta.
    destruct (contract_possibility_line_first 100 40 (5 / 10)) as [-> ->].
    destruct (contract_possibility_line_last 100 40 (5 / 10)) as [-> ->].
    rewrite (linspace_nth_last (Fin 0) (Fin 40) 98).
    rewrite (coverage_nth 40 0) by lia.
    repeat split; do 2 f_equal; simpl INR; lra.
Qed.

Lemma contract_possibility_line_pointwise_witness :
  nth_error
    (fst (contract_possibility_line (Fin 100) (Fin 40) (Fin (5 / 10)))) 33%nat
  = Some (Fin (100 - 5 / 10 * (INR 33 * (40 / 99)))).
Proof.
  apply (proj1 contract_possibility_line_pointwise 100 40 (5 / 10) 33%nat).
  lia.
Defined.

(** C5 as stated fails at full coverage: with [W0 = 100], [L = 40],
    [p = 0.5] the point for [c = 40] is not (100, 100). *)
Lemma contract_possibility_line_full_cover_not_100 :
  let line := contract_possibility_line (Fin 100) (Fin 40) (Fin (5 / 10)) in
  nth_error (linspace (Fin 0) (Fin 40) 100) 99 = Some (Fin 40) /\
  ~ (nth_error (fst line) 99 = Some (Fin 100) /\
     nth_error (snd line) 99 = Some (Fin 100)).
Proof.
  cbv zeta. split.
  - apply (linspace_nth_last (Fin 0) (Fin 40) 98).
  - destruct (contract_possibility_line_last 100 40 (5 / 10)) as [-> _].
    intros [H _]. injection H as H. lra.
Qed.

(** C10.  The two arrays of [contract_possibility_line] have 100 entries
    each; the first point is the no-insurance allocation [(W0, W0 - L)] and
    the last is the full-insurance allocation [(W0 - p*L, W0 - p*L)], with
    equal wealth in both states; for the module's two types the last points
    are [full_insurance_s] and [full_insurance_g]. *)
Theorem contract_possibility_line_endpoints :
  (forall w l p : R,
     let line := contract_possibility_line (Fin w) (Fin l) (Fin p) in
     List.length (fst line) = 100%nat /\
     List.length (snd line) = 100%nat /\
     nth_error (fst line) 0 = Some (Fin w) /\
     nth_error (snd line) 0 = Some (Fin (w - l)) /\
     nth_error (fst line) 99 = Some (Fin (w - p * l)) /\
     nth_error (snd line) 99 = Some (Fin (w - p * l))) /\
  (forall P : Params,
     nth_error (fst (contract_line_s P)) 99 = Some (fst (full_insurance_s P)) /\
     nth_error (snd (contract_line_s P)) 99 = Some (snd (full_insurance_s P)) /\
     nth_error (fst (contract_line_g P)) 99 = Some (fst (full_insurance_g P)) /\
     nth_error (snd (contract_line_g P)) 99 = Some (snd (full_insurance_g P)) /\
     fst (full_insurance_s P) = snd (full_insurance_s P) /\
     fst (full_insurance_g P) = snd (full_insurance_g P)).
Proof.
  split.
  - intros w l p line.
    destruct (contract_possibility_line_first w l p) as [F1 F2].
    destruct (contract_possibility_line_last w l p) as [L1 L2].
    fold line in F1, F2, L1, L2.
    assert (Hlen : List.length (fst line) = 100%nat /\
                   List.length (snd line) = 100%nat).
    { unfold line. rewrite contract_possibility_line_maps. cbn [fst snd].
      now rewrite !length_map, linspace_length. }
    tauto.
  - intros P. unfold contract_line_s, contract_line_g, of_Z.
    destruct (contract_possibility_line_last (IZR (W0 P)) (L P) (p_s P))
      as [-> ->].
    destruct (contract_possibility_line_last (IZR (W0 P)) (L P) (p_g P))
      as [-> ->].
    repeat split.
Qed.

(** ** The slider configuration *)

(** The shared upper utility level is the utility of the low-risk type's
    full-insurance allocation. *)
Lemma utilityR_certain (w w' p a : R) :
  a <> 1 -> utilityR w w' 0 a = utilityR w w p a.
Proof. intros Ha. unfold utilityR. field. lra. Qed.

(** C1, as the code has it.  For each slider, [min] is the no-trade utility
    [utility(W0, W0 - L, p_type, alpha)], [value] is [min], [step] is
    [(max - min) / 100] and [max] is [M + 0.5 * (M - min)], where
    [M = utility(W0 - p_g*L, W0 - p_s*L, 0, alpha)] is the same level for
    both sliders; for the module's parameter values [M] is the utility of
    the low-risk type's full-insurance allocation. *)
Theorem slider_configuration (P : Params) :
  let M :=
    utility (of_Z (W0 P) - Fin (p_g P) * Fin (L P))
            (of_Z (W0 P) - Fin (p_s P) * Fin (L P))
            (Fin 0) (Fin (alpha P)) in
  (forall (sl : dcc.Slider) (p : R),
     sl = s_slider P /\ p = p_s P \/ sl = g_slider P /\ p = p_g P ->
     dcc.min sl
     = utility (of_Z (W0 P)) (of_Z (W0 P) - Fin (L P)) (Fin p) (Fin (alpha P))
     /\ dcc.max sl = (M + Fin (5 / 10) * (M - dcc.min sl))%num
     /\ dcc.value sl = dcc.min sl
     /\ dcc.step sl = ((dcc.max sl - dcc.min sl) / Fin 100)%num) /\
  max_utility_s default_params
  = utility (fst (full_insurance_g default_params))
      (snd (full_insurance_g default_params))
      (Fin (p_g default_params)) (Fin (alpha default_params)).
Proof.
  intros M. split.
  - intros sl p [[-> ->] | [-> ->]]; repeat split.
  - rewrite (max_utility_s_fin default_params default_params_valid).
    unfold full_insurance_g, of_Z.
    cbn [fst snd W0 L p_s p_g alpha default_params].
    fin_arith. rewrite utility_utilityR by lra.
    f_equal. apply utilityR_certain. lra.
Qed.

Lemma slider_configuration_witness :
  dcc.max (s_slider default_params)
  = (max_utility_s default_params
     + Fin (5 / 10)
       * (max_utility_s default_params - dcc.min (s_slider default_params)))%num.
Proof.
  apply (proj1 (slider_configuration default_params)
           (s_slider default_params) (p_s default_params)).
  left. split; reflexivity.
Defined.

(** C1 as stated fails for the high-risk slider: its [max] is not built on
    the utility of the high-risk type's own full-insurance allocation. *)
Lemma s_slider_max_not_own_full_insurance :
  let P := default_params in
  let F :=
    utility (fst (full_insurance_s P)) (snd (full_insurance_s P))
            (Fin (p_s P)) (Fin (alpha P)) in
  dcc.max (s_slider P)
  <> (F + Fin (5 / 10) * (F - dcc.min (s_slider P)))%num.
Proof.
  cbv zeta. unfold s_slider, dcc.max, dcc.min.
  rewrite (init_utility_s_fin _ default_params_valid).
  rewrite (max_utility_s_fin _ default_params_valid).
  unfold full_insurance_s, of_Z. cbn [fst snd W0 L p_s p_g alpha default_params].
  fin_arith. rewrite utility_utilityR by lra. fin_arith.
  intros H. injection H as H.
  rewrite (utilityR_certain (100 - 25 / 100 * 40) _ (5 / 10)) in H by lra.
  unfold utilityR in H.
  pose proof (Rpower_decreasing (100 - 5 / 10 * 40) (100 - 25 / 100 * 40)
                (1 - 3) ltac:(lra) ltac:(lra) ltac:(lra)) as Hd.
  lra.
Qed.

(** ** Assignment through a negative index *)

Lemma update_nth_app {A : Type} (f : A -> A) (l r : list A) (a : A) :
  update_nth f (List.length l) (l ++ a :: r) = l ++ f a :: r.
Proof.
  induction l as [| b l IH]; simpl; [reflexivity | now rewrite IH].
Qed.

Lemma py_index_from_end (len k : nat) :
  (0 < k <= len)%nat ->
  py_index len (- Z.of_nat k) = Some (len - k)%nat.
Proof.
  intros Hk. unfold py_index.
  replace (0 <=? - Z.of_nat k)%Z with false by (symmetry; apply Z.leb_gt; lia).
  cbn [andb].
  replace (- Z.of_nat len <=? - Z.of_nat k)%Z with true
    by (symmetry; apply Z.leb_le; lia).
  replace (- Z.of_nat k <? 0)%Z with true by (symmetry; apply Z.ltb_lt; lia).
  cbn [andb]. f_equal. lia.
Qed.

Lemma py_index_too_short (len k : nat) :
  (len < k)%nat -> py_index len (- Z.of_nat k) = None.
Proof.
  intros Hk. unfold py_index.
  replace (0 <=? - Z.of_nat k)%Z with false by (symmetry; apply Z.leb_gt; lia).
  cbn [andb].
  replace (- Z.of_nat len <=? - Z.of_nat k)%Z with false
    by (symmetry; apply Z.leb_gt; lia).
  reflexivity.
Qed.

Lemma assign_y_penultimate (l : list go.Scatter) (a b : go.Scatter)
  (ys : list num) :
  assign_y (l ++ [a; b]) (-2) ys = Some (l ++ [go.set_y a ys; b]).
Proof.
  unfold assign_y. change (-2)%Z with (- Z.of_nat 2)%Z.
  rewrite py_index_from_end by (rewrite length_app; simpl; lia).
  rewrite length_app. cbn [List.length].
  replace (List.length l + 2 - 2)%nat with (List.length l) by lia.
  now rewrite update_nth_app.
Qed.

Lemma assign_y_last (l : list go.Scatter) (b : go.Scatter) (ys : list num) :
  assign_y (l ++ [b]) (-1) ys = Some (l ++ [go.set_y b ys]).
Proof.
  unfold assign_y. change (-1)%Z with (- Z.of_nat 1)%Z.
  rewrite py_index_from_end by (rewrite length_app; simpl; lia).
  rewrite length_app. cbn [List.length].
  replace (List.length l + 1 - 1)%nat with (List.length l) by lia.
  now rewrite update_nth_app.
Qed.

Lemma assign_y_penultimate_short (d : list go.Scatter) (ys : list num) :
  (List.length d < 2)%nat -> assign_y d (-2) ys = None.
Proof.
  intros Hd. unfold assign_y. change (-2)%Z with (- Z.of_nat 2)%Z.
  now rewrite py_index_too_short.
Qed.

Lemma split_last_two {A : Type} (d : list A) :
  (2 <= List.length d)%nat -> exists l a b, d = l ++ [a; b].
Proof.
  intros Hd.
  destruct (exists_last (l := d)) as (d1 & b & ->);
    [intros ->; simpl in Hd; lia |].
  rewrite length_app in Hd. simpl in Hd.
  destruct (exists_last (l := d1)) as (l & a & ->);
    [intros ->; simpl in Hd; lia |].
  exists l, a, b. now rewrite <- app_assoc.
Qed.

(** ** The callback on a figure *)

Section Callback.
Variable P : Params.

(** The callback succeeds exactly on a figure with at least two traces, and
    then replaces the [y] of the last two. *)
Lemma update_plot_last_two (l : list go.Scatter) (a b : go.Scatter)
  (xr yr : num * num) (s g : num) :
  update_plot P (go.mkFigure (l ++ [a; b]) xr yr) s g
  = Some (go.mkFigure
            (l ++ [go.set_y a (indifference_curve (x_vals P) s
                                 (Fin (p_s P)) (Fin (alpha P)));
                   go.set_y b (indifference_curve (x_vals P) g
                                 (Fin (p_g P)) (Fin (alpha P)))])
            xr yr).
Proof.
  unfold update_plot. cbn [go.data go.xaxis_range go.yaxis_range].
  rewrite assign_y_penultimate.
  change (l ++ [go.set_y a ?ys; b]) with (l ++ [go.set_y a ys] ++ [b]).
  rewrite app_assoc, assign_y_last, <- app_assoc. reflexivity.
Qed.

Lemma update_plot_some (f f1 : go.Figure) (s g : num) :
  update_plot P f s g = Some f1 ->
  exists l a b,
    go.data f = l ++ [a; b] /\
    f1 = go.mkFigure
           (l ++ [go.set_y a (indifference_curve (x_vals P) s
                                (Fin (p_s P)) (Fin (alpha P)));
                  go.set_y b (indifference_curve (x_vals P) g
                                (Fin (p_g P)) (Fin (alpha P)))])
           (go.xaxis_range f) (go.yaxis_range f).
Proof.
  intros H. destruct f as [d xr yr].
  destruct (le_lt_dec 2 (List.length d)) as [Hd | Hd].
  - destruct (split_last_two d Hd) as (l & a & b & ->).
    rewrite update_plot_last_two in H. injection H as <-.
    exists l, a, b. split; reflexivity.
  - unfold update_plot in H. cbn [go.data] in H.
    rewrite assign_y_penultimate_short in H by exact Hd. discriminate.
Qed.


Lemma fig_scene_of : fig P = scene_of P (init_utility_s P) (init_utility_g P).
Proof. reflexivity. Qed.

Lemma update_plot_scene_of (s g s' g' : num) :
  update_plot P (scene_of P s g) s' g' = Some (scene_of P s' g').
Proof. unfold scene_of. now rewrite update_plot_last_two. Qed.

Lemma reachable_scene (st : Session) :
  reachable P st -> scene st = scene_of P (s_value st) (g_value st).
Proof.
  induction 1 as [_ | st which v st' _ IH Hev].
  - reflexivity.
  - unfold on_slider in Hev. rewrite IH, update_plot_scene_of in Hev.
    injection Hev as <-. reflexivity.
Qed.

Lemma on_slider_reachable (st : Session) (which : slider_id) (v : num) :
  reachable P st ->
  on_slider P st which v
  = Some (mkSession
            (scene_of P
               match which with s_slider_id => v | _ => s_value st end
               match which with g_slider_id => v | _ => g_value st end)
            match which with s_slider_id => v | _ => s_value st end
            match which with g_slider_id => v | _ => g_value st end).
Proof.
  intros Hr. unfold on_slider.
  now rewrite (reachable_scene st Hr), update_plot_scene_of.
Qed.

End Callback.

(** ** Slider events on the scene *)

Lemma startup_default : startup default_params = Some (fig default_params).
Proof. reflexivity. Qed.

Lemma set_y_set_y (t : go.Scatter) (ys ys' : list num) :
  go.set_y (go.set_y t ys) ys' = go.set_y t ys'.
Proof. reflexivity. Qed.

(** C3.  In a session reached from start-up, an event on one slider (the
    other slider's value unchanged) succeeds and yields a scene that differs
    from the previous one at most in the [y] of that slider's trace: every
    other trace (the seven static ones and the other indifference curve) is
    the same, the changed trace keeps its [x], mode and name, and the axis
    ranges and the number of traces, nine, are unchanged. *)
Theorem slider_event_frame
  (P : Params) (st : Session) (which : slider_id) (v : num) :
  reachable P st ->
  exists st' : Session,
    on_slider P st which v = Some st' /\
    (forall i : nat,
       i <> slot which ->
       nth_error (go.data (scene st')) i = nth_error (go.data (scene st)) i) /\
    (exists t t' : go.Scatter,
       nth_error (go.data (scene st)) (slot which) = Some t /\
       nth_error (go.data (scene st')) (slot which) = Some t' /\
       go.x t' = go.x t /\ go.mode t' = go.mode t /\ go.name t' = go.name t) /\
    go.xaxis_range (scene st') = go.xaxis_range (scene st) /\
    go.yaxis_range (scene st') = go.yaxis_range (scene st) /\
    List.length (go.data (scene st')) = 9%nat /\
    List.length (go.data (scene st)) = 9%nat.
Proof.
  intros Hr. rewrite (on_slider_reachable P st which v Hr).
  eexists. split; [reflexivity |]. cbn [scene].
  rewrite (reachable_scene P st Hr).
  split; [| split].
  - intros i Hi.
    destruct which; cbn [slot] in Hi;
      do 9 (destruct i as [| i]; [reflexivity || contradiction |]);
      reflexivity.
  - destruct which; cbn [slot]; do 2 eexists;
      (split; [reflexivity |]); (split; [reflexivity |]);
      repeat split.
  - repeat split.
Qed.

Lemma slider_event_frame_witness :
  exists st' : Session,
    on_slider default_params (session0 default_params) s_slider_id (Fin 0)
    = Some st' /\
    nth_error (go.data (scene st')) 8
    = nth_error (go.data (scene (session0 default_params))) 8.
Proof.
  destruct (slider_event_frame default_params (session0 default_params)
              s_slider_id (Fin 0)
              (reach_start default_params startup_default))
    as (st' & Hev & Hother & _).
  exists st'. split; [exact Hev |].
  apply Hother. discriminate.
Defined.

(** ** The dense x grid *)

Section Grid.
Variable P : Params.
Hypothesis HP : valid_params P.

Lemma W0_positive : (0 < W0 P)%Z.
Proof.
  destruct HP as (_ & _ & _ & Hl & HW & _).
  apply lt_IZR. lra.
Qed.

Lemma x_vals_count :
  exists d : nat,
    Z.to_nat (W0 P + 50) = S (S d) /\ INR (S d) = IZR (W0 P + 49) /\
    S d = Z.to_nat (W0 P + 49).
Proof.
  pose proof W0_positive as HW.
  exists (Z.to_nat (W0 P + 48)). split; [lia |]. split; [| lia].
  rewrite INR_IZR_INZ. f_equal. lia.
Qed.

Lemma x_vals_nth (i : nat) :
  (i < Z.to_nat (W0 P + 50))%nat ->
  nth_error (x_vals P) i
  = Some (Fin (INR i * (IZR (W0 P + 50) / IZR (W0 P + 49)))).
Proof.
  destruct x_vals_count as (d & Hn & Hd & _). intros Hi.
  unfold x_vals, of_Z. rewrite Hn in *.
  rewrite linspace_nth by lia. rewrite Hd. do 2 f_equal.
  field. pose proof W0_positive as HW.
  apply not_0_IZR. lia.
Qed.

Lemma x_vals_last :
  nth_error (x_vals P) (Z.to_nat (W0 P + 49)) = Some (Fin (IZR (W0 P + 50))).
Proof.
  destruct x_vals_count as (d & Hn & _ & Hd).
  unfold x_vals, of_Z. rewrite Hn, <- Hd.
  apply linspace_nth_last.
Qed.

End Grid.

Lemma scene_of_x (P : Params) (s g : num) (which : slider_id) (t : go.Scatter) :
  nth_error (go.data (scene_of P s g)) (slot which) = Some t ->
  go.x t = x_vals P.
Proof.
  destruct which; cbn [slot]; intros H;
    change (nth_error (go.data (scene_of P s g)) _) with
      (Some (go.mkScatter (x_vals P)
               (indifference_curve (x_vals P) s (Fin (p_s P)) (Fin (alpha P)))
               "lines" "I_s (High Risk)")) in H
    || change (nth_error (go.data (scene_of P s g)) _) with
      (Some (go.mkScatter (x_vals P)
               (indifference_curve (x_vals P) g (Fin (p_g P)) (Fin (alpha P)))
               "lines" "I_g (Low Risk)")) in H;
    injection H as <-; reflexivity.
Qed.

(** C7, as the code has it.  With the module's parameter values start-up
    succeeds.  For valid parameters [x_vals] has [W0 + 50] samples from 0 to
    [W0 + 50], both ends included, so that consecutive samples are
    [(W0 + 50) / (W0 + 49)] apart (sample [i] is [i] times that spacing);
    every scene reached by slider events carries this same array as the
    [x] of both indifference curves. *)
Theorem x_vals_grid (P : Params) :
  valid_params P ->
  startup default_params = Some (fig default_params) /\
  List.length (x_vals P) = Z.to_nat (W0 P + 50) /\
  nth_error (x_vals P) 0 = Some (Fin 0) /\
  nth_error (x_vals P) (Z.to_nat (W0 P + 49)) = Some (Fin (IZR (W0 P + 50))) /\
  (forall i : nat,
     (i < Z.to_nat (W0 P + 50))%nat ->
     nth_error (x_vals P) i
     = Some (Fin (INR i * (IZR (W0 P + 50) / IZR (W0 P + 49))))) /\
  (forall (st : Session) (which : slider_id) (t : go.Scatter),
     reachable P st ->
     nth_error (go.data (scene st)) (slot which) = Some t ->
     go.x t = x_vals P).
Proof.
  intros HP. pose proof (W0_positive P HP) as HW.
  split; [| split; [| split; [| split; [| split]]]].
  - reflexivity.
  - apply linspace_length.
  - rewrite (x_vals_nth P HP 0) by lia. do 2 f_equal. simpl INR. lra.
  - apply (x_vals_last P HP).
  - apply (x_vals_nth P HP).
  - intros st which t Hr Ht. rewrite (reachable_scene P st Hr) in Ht.
    exact (scene_of_x P _ _ which t Ht).
Qed.

Lemma x_vals_grid_witness :
  nth_error (x_vals default_params) 1
  = Some (Fin (INR 1 * (IZR (100 + 50) / IZR (100 + 49)))).
Proof.
  apply (proj1 (proj2 (proj2 (proj2 (proj2
           (x_vals_grid default_params default_params_valid))))) 1%nat).
  vm_compute. lia.
Defined.

(** C7 as stated fails on the spacing: the first two samples of the
    module's grid are [150 / 149] apart, not 1. *)
Lemma x_vals_not_unit_spaced :
  ~ (forall (i : nat) (a b : num),
       nth_error (x_vals default_params) i = Some a ->
       nth_error (x_vals default_params) (S i) = Some b ->
       (b - a)%num = Fin 1).
Proof.
  intros H.
  specialize (H 0%nat (Fin (INR 0 * (IZR (100 + 50) / IZR (100 + 49))))
                (Fin (INR 1 * (IZR (100 + 50) / IZR (100 + 49))))).
  rewrite nsub_fin in H.
  assert (E : Fin (INR 1 * (IZR (100 + 50) / IZR (100 + 49))
                   - INR 0 * (IZR (100 + 50) / IZR (100 + 49))) = Fin 1).
  { apply H.
    - apply (x_vals_nth default_params default_params_valid 0). vm_compute. lia.
    - apply (x_vals_nth default_params default_params_valid 1). vm_compute. lia. }
  injection E as E. simpl in E. lra.
Qed.

(** ** The callback and the slider bounds *)

Lemma default_s_slider_range :
  exists lo hi : R,
    dcc.min (s_slider default_params) = Fin lo /\
    dcc.max (s_slider default_params) = Fin hi /\
    lo < 0 /\ hi < 0 /\ lo < hi /\ 0 < radicand 150 hi (5 / 10) 3.
Proof.
  unfold s_slider, dcc.min, dcc.max.
  rewrite (init_utility_s_fin _ default_params_valid).
  rewrite (max_utility_s_fin _ default_params_valid).
  cbn [W0 L p_s p_g alpha default_params]. fin_arith.
  do 2 eexists. split; [reflexivity |]. split; [reflexivity |].
  unfold radicand, utilityR.
  rewrite !Rpower_neg2 by lra. lra.
Qed.

Lemma scene_of_curve_s (P : Params) (s g : num) :
  option_map go.y (nth_error (go.data (scene_of P s g)) 7)
  = Some (indifference_curve (x_vals P) s (Fin (p_s P)) (Fin (alpha P))).
Proof. reflexivity. Qed.

Lemma scene_of_curve_g (P : Params) (s g : num) :
  option_map go.y (nth_error (go.data (scene_of P s g)) 8)
  = Some (indifference_curve (x_vals P) g (Fin (p_g P)) (Fin (alpha P))).
Proof. reflexivity. Qed.

(** The accident probability of the type a slider belongs to. *)
Lemma on_slider_curve (P : Params) (st : Session) (which : slider_id) (v : num) :
  reachable P st ->
  exists st' : Session,
    on_slider P st which v = Some st' /\
    option_map go.y (nth_error (go.data (scene st')) (slot which))
    = Some (indifference_curve (x_vals P) v
              (Fin (match which with
                    | s_slider_id => p_s P
                    | g_slider_id => p_g P
                    end))
              (Fin (alpha P))).
Proof.
  intros Hr. rewrite (on_slider_reachable P st which v Hr).
  eexists. split; [reflexivity |]. cbn [scene].
  destruct which; cbn [slot];
    [apply scene_of_curve_s | apply scene_of_curve_g].
Qed.

Lemma clamp_in_range (lo hi v : num) :
  num_lt v lo = false -> num_lt hi v = false -> clamp lo hi v = v.
Proof. intros H1 H2. unfold clamp. now rewrite H1, H2. Qed.

(** C2, as the code has it.  The callback does not clamp: in a session
    reached from start-up, the curve of the slider that moved is computed
    from the received value as it is, whatever the value; and the clamping
    handler of the specification agrees with the callback on every value
    that is neither below the slider's [min] nor above its [max]. *)
Theorem slider_value_used_as_received
  (P : Params) (st : Session) (which : slider_id) (v : num) :
  reachable P st ->
  (exists st' : Session,
     on_slider P st which v = Some st' /\
     option_map go.y (nth_error (go.data (scene st')) (slot which))
     = Some (indifference_curve (x_vals P) v
               (Fin (match which with
                     | s_slider_id => p_s P
                     | g_slider_id => p_g P
                     end))
               (Fin (alpha P)))) /\
  (num_lt v (dcc.min (slider_of P which)) = false ->
   num_lt (dcc.max (slider_of P which)) v = false ->
   onSliderChange_spec P st which v = on_slider P st which v).
Proof.
  intros Hr. split.
  - apply on_slider_curve. exact Hr.
  - intros Hlo Hhi. unfold onSliderChange_spec.
    now rewrite clamp_in_range.
Qed.

Lemma slider_value_used_as_received_witness :
  exists st' : Session,
    on_slider default_params (session0 default_params) s_slider_id (Fin 0)
    = Some st' /\
    option_map go.y (nth_error (go.data (scene st')) 7)
    = Some (indifference_curve (x_vals default_params) (Fin 0)
              (Fin (p_s default_params)) (Fin (alpha default_params))).
Proof.
  apply (proj1 (slider_value_used_as_received default_params
                  (session0 default_params) s_slider_id (Fin 0)
                  (reach_start default_params startup_default))).
Defined.

(** C2 as stated fails: the value 0 lies above the [max] of the high-risk
    slider, and the scene the callback builds from it is not the scene the
    clamping handler builds (at [x = 150] the callback's curve is [NaN], the
    clamped one a number). *)
Lemma slider_value_not_clamped :
  let P := default_params in
  num_lt (dcc.max (s_slider P)) (Fin 0) = true /\
  exists st_code st_spec : Session,
    on_slider P (session0 P) s_slider_id (Fin 0) = Some st_code /\
    onSliderChange_spec P (session0 P) s_slider_id (Fin 0) = Some st_spec /\
    scene st_code <> scene st_spec.
Proof.
  cbv zeta.
  destruct default_s_slider_range as (lo & hi & Hlo & Hhi & Hlo0 & Hhi0 & _ & Hrad).
  assert (Hr : reachable default_params (session0 default_params))
    by (apply reach_start, startup_default).
  assert (Hlt : num_lt (dcc.max (s_slider default_params)) (Fin 0) = true).
  { rewrite Hhi. unfold num_lt. destruct (Rlt_dec hi 0); [reflexivity | lra]. }
  split; [exact Hlt |].
  assert (Hclamp : clamp (dcc.min (s_slider default_params))
                     (dcc.max (s_slider default_params)) (Fin 0) = Fin hi).
  { unfold clamp. rewrite Hlt, Hlo. unfold num_lt.
    destruct (Rlt_dec 0 lo); [lra | exact Hhi]. }
  do 2 eexists. split; [| split].
  - apply (on_slider_reachable _ _ s_slider_id (Fin 0) Hr).
  - unfold onSliderChange_spec. cbn [slider_of]. rewrite Hclamp.
    apply (on_slider_reachable _ _ s_slider_id (Fin hi) Hr).
  - cbn [scene]. intros E.
    assert (Ey : Some (indifference_curve (x_vals default_params) (Fin 0)
                         (Fin (p_s default_params)) (Fin (alpha default_params)))
                 = Some (indifference_curve (x_vals default_params) (Fin hi)
                           (Fin (p_s default_params))
                           (Fin (alpha default_params)))).
    { rewrite <- (scene_of_curve_s default_params (Fin 0)
                    (g_value (session0 default_params))).
      rewrite E. apply scene_of_curve_s. }
    apply (f_equal (fun o : option (list num) =>
                      match o with
                      | Some l => nth_error l 149
                      | None => None
                      end)) in Ey.
    cbv beta iota in Ey.
    unfold indifference_curve in Ey. rewrite !nth_error_map in Ey.
    rewrite (x_vals_last default_params default_params_valid
             : nth_error (x_vals default_params) 149 = _) in Ey.
    cbn [option_map W0 p_s alpha default_params] in Ey.
    change (IZR (100 + 50)) with 150 in Ey.
    rewrite !indifference_curve_at_radicand in Ey by lra.
    rewrite (npow_pos (radicand 150 hi (5 / 10) 3)) in Ey
      by (try exact Hrad; apply inv_exponent_nonzero; lra).
    rewrite npow_neg in Ey.
    + rewrite is_int_default_exponent in Ey. discriminate.
    + unfold radicand. pose proof (Rpower_pos 150 (1 - 3)). lra.
    + apply inv_exponent_nonzero. lra.
Qed.

(** ** The round trip through the callback *)

Lemma fig_curve (P : Params) (which : slider_id) :
  option_map go.y (nth_error (go.data (fig P)) (slot which))
  = Some (indifference_curve (x_vals P)
            (dcc.value (slider_of P which))
            (Fin (match which with
                  | s_slider_id => p_s P
                  | g_slider_id => p_g P
                  end))
            (Fin (alpha P))).
Proof. destruct which; reflexivity. Qed.

(** C8.  Feeding a slider its own initial value reproduces the seeded curve
    of its trace exactly: from the start-up state, where the whole seeded
    figure comes back, from every session reached by slider events, and on
    any figure with at least two traces, whatever their [y] was.  An event
    applied a second time leaves the scene as the first application made
    it. *)
Theorem slider_round_trip_idempotent (P : Params) :
  update_plot P (fig P) (dcc.value (s_slider P)) (dcc.value (g_slider P))
  = Some (fig P) /\
  (forall which : slider_id,
     on_slider P (session0 P) which (dcc.value (slider_of P which))
     = Some (session0 P)) /\
  (forall (st st1 : Session) (which : slider_id) (v : num),
     on_slider P st which v = Some st1 ->
     on_slider P st1 which v = Some st1) /\
  (forall (st : Session) (which : slider_id),
     reachable P st ->
     exists st' : Session,
       on_slider P st which (dcc.value (slider_of P which)) = Some st' /\
       option_map go.y (nth_error (go.data (scene st')) (slot which))
       = option_map go.y (nth_error (go.data (fig P)) (slot which))) /\
  (forall (l : list go.Scatter) (a b : go.Scatter) (xr yr : num * num),
     update_plot P (go.mkFigure (l ++ [a; b]) xr yr)
       (dcc.value (s_slider P)) (dcc.value (g_slider P))
     = Some (go.mkFigure
               (l ++ [go.set_y a (indifference_curve_s P);
                      go.set_y b (indifference_curve_g P)])
               xr yr)).
Proof.
  split; [| split; [| split; [| split]]].
  - cbn [dcc.value s_slider g_slider].
    rewrite fig_scene_of at 1. rewrite update_plot_scene_of.
    now rewrite <- fig_scene_of.
  - intros which. unfold on_slider, session0. cbn [scene s_value g_value].
    assert (Hs : match which with
                 | s_slider_id => dcc.value (slider_of P which)
                 | g_slider_id => dcc.value (s_slider P)
                 end = init_utility_s P) by (destruct which; reflexivity).
    assert (Hg : match which with
                 | s_slider_id => dcc.value (g_slider P)
                 | g_slider_id => dcc.value (slider_of P which)
                 end = init_utility_g P) by (destruct which; reflexivity).
    rewrite Hs, Hg. rewrite fig_scene_of at 1. rewrite update_plot_scene_of.
    rewrite <- fig_scene_of. reflexivity.
  - intros st st1 which v H. unfold on_slider in *.
    destruct (update_plot P (scene st) _ _) as [f1 |] eqn:E; [| discriminate].
    injection H as <-. cbn [scene s_value g_value].
    apply update_plot_some in E. destruct E as (l & a & b & _ & ->).
    assert (Hs : match which with
                 | s_slider_id => v
                 | g_slider_id =>
                     match which with
                     | s_slider_id => v
                     | g_slider_id => s_value st
                     end
                 end = match which with
                       | s_slider_id => v
                       | g_slider_id => s_value st
                       end) by (destruct which; reflexivity).
    assert (Hg : match which with
                 | s_slider_id =>
                     match which with
                     | s_slider_id => g_value st
                     | g_slider_id => v
                     end
                 | g_slider_id => v
                 end = match which with
                       | s_slider_id => g_value st
                       | g_slider_id => v
                       end) by (destruct which; reflexivity).
    rewrite Hs, Hg, update_plot_last_two, !set_y_set_y. reflexivity.
  - intros st which Hr.
    destruct (on_slider_curve P st which (dcc.value (slider_of P which)) Hr)
      as (st' & Hev & Hy).
    exists st'. split; [exact Hev |]. rewrite Hy. symmetry. apply fig_curve.
  - intros l a b xr yr. apply update_plot_last_two.
Qed.

Lemma slider_round_trip_idempotent_witness :
  on_slider default_params
    (mkSession (scene_of default_params (Fin 0) (init_utility_g default_params))
       (Fin 0) (init_utility_g default_params))
    s_slider_id (Fin 0)
  = Some
      (mkSession
         (scene_of default_params (Fin 0) (init_utility_g default_params))
         (Fin 0) (init_utility_g default_params)).
Proof.
  apply (proj1 (proj2 (proj2 (slider_round_trip_idempotent default_params)))
           (session0 default_params)).
  apply (on_slider_reachable default_params (session0 default_params)
           s_slider_id (Fin 0)).
  apply reach_start, startup_default.
Defined.

(** * Further properties of the callback, the scene and the grid *)

(** ** The callback on an arbitrary figure *)

Lemma nth_error_last_two {A : Type} (l : list A) (a b : A) (i : nat) (t : A) :
  nth_error (l ++ [a; b]) i = Some t ->
  (i < List.length l)%nat /\ nth_error l i = Some t
  \/ i = List.length l /\ t = a
  \/ i = S (List.length l) /\ t = b.
Proof.
  intros H.
  destruct (Nat.lt_ge_cases i (List.length l)) as [Hlt | Hge].
  - left. split; [exact Hlt |]. now rewrite nth_error_app1 in H.
  - right. rewrite nth_error_app2 in H by exact Hge.
    destruct (i - List.length l)%nat as [| [| k]] eqn:E; simpl in H.
    + left. injection H as <-. split; [lia | reflexivity].
    + right. injection H as <-. split; [lia | reflexivity].
    + destruct k; discriminate.
Qed.

Lemma nth_error_at_length {A : Type} (l r : list A) (a : A) :
  nth_error (l ++ a :: r) (List.length l) = Some a.
Proof.
  rewrite nth_error_app2 by lia. now rewrite Nat.sub_diag.
Qed.

Lemma nth_error_after_length {A : Type} (l : list A) (a b : A) :
  nth_error (l ++ [a; b]) (S (List.length l)) = Some b.
Proof.
  rewrite nth_error_app2 by lia.
  replace (S (List.length l) - List.length l)%nat with 1%nat by lia.
  reflexivity.
Qed.

(** X9.  [update_plot] fails (the [IndexError] of [fig.data[-2]]) exactly on
    a figure with fewer than two traces.  When it succeeds, on any figure,
    the result has the same number of traces and the same axis ranges, every
    trace keeps its [x], mode and name, and every trace but the last two is
    unchanged. *)
Theorem update_plot_error_and_frame
  (P : Params) (f : go.Figure) (s g : num) :
  (update_plot P f s g = None <-> (List.length (go.data f) < 2)%nat) /\
  (forall f' : go.Figure,
     update_plot P f s g = Some f' ->
     List.length (go.data f') = List.length (go.data f) /\
     go.xaxis_range f' = go.xaxis_range f /\
     go.yaxis_range f' = go.yaxis_range f /\
     forall (i : nat) (t : go.Scatter),
       nth_error (go.data f) i = Some t ->
       exists t' : go.Scatter,
         nth_error (go.data f') i = Some t' /\
         go.x t' = go.x t /\ go.mode t' = go.mode t /\
         go.name t' = go.name t /\
         ((i + 2 < List.length (go.data f))%nat -> t' = t)).
Proof.
  split.
  - split.
    + intros Hnone.
      destruct (le_lt_dec 2 (List.length (go.data f))) as [Hd | Hd];
        [| exact Hd].
      destruct f as [d xr yr]. cbn [go.data] in Hd.
      destruct (split_last_two d Hd) as (l & a & b & ->).
      rewrite update_plot_last_two in Hnone. discriminate.
    + intros Hd. unfold update_plot.
      now rewrite assign_y_penultimate_short.
  - intros f' H. apply update_plot_some in H.
    destruct H as (l & a & b & Hd & ->). cbn [go.data go.xaxis_range go.yaxis_range].
    rewrite Hd. split; [now rewrite !length_app |].
    split; [reflexivity |]. split; [reflexivity |].
    intros i t Ht.
    destruct (nth_error_last_two l a b i t Ht) as [[Hi Hl] | [[-> ->] | [-> ->]]].
    + exists t. rewrite nth_error_app1 by exact Hi. repeat split. exact Hl.
    + eexists. rewrite nth_error_at_length. split; [reflexivity |].
      repeat split. rewrite length_app. simpl. lia.
    + eexists. rewrite nth_error_after_length. split; [reflexivity |].
      repeat split. rewrite length_app. simpl. lia.
Qed.

Lemma update_plot_error_and_frame_witness :
  List.length
    (go.data (scene_of default_params (Fin 0) (Fin 0)))
  = List.length (go.data (fig default_params)).
Proof.
  apply (proj2 (update_plot_error_and_frame default_params
                  (fig default_params) (Fin 0) (Fin 0))
           (scene_of default_params (Fin 0) (Fin 0))).
  rewrite fig_scene_of. apply update_plot_scene_of.
Defined.

Lemma update_plot_after_update
  (P : Params) (f f1 : go.Figure) (s g s' g' : num) :
  update_plot P f s g = Some f1 ->
  update_plot P f1 s' g' = update_plot P f s' g'.
Proof.
  intros H. apply update_plot_some in H.
  destruct H as (l & a & b & Hd & ->).
  destruct f as [d xr yr]. cbn [go.data go.xaxis_range go.yaxis_range] in *.
  subst d. rewrite !update_plot_last_two, !set_y_set_y. reflexivity.
Qed.

(** X10.  The callback keeps no history: after a successful call, a second
    call gives what it would have given on the original figure, whatever the
    values of the first call were. *)
Theorem update_plot_overwrites
  (P : Params) (f f1 : go.Figure) (s g s' g' : num) :
  update_plot P f s g = Some f1 ->
  update_plot P f1 s' g' = update_plot P f s' g'.
Proof. apply update_plot_after_update. Qed.

Lemma update_plot_overwrites_witness :
  update_plot default_params (scene_of default_params (Fin 0) (Fin 0))
    (Fin (-1)) (Fin (-1))
  = update_plot default_params (fig default_params) (Fin (-1)) (Fin (-1)).
Proof.
  apply (update_plot_overwrites default_params (fig default_params)
           (scene_of default_params (Fin 0) (Fin 0)) (Fin 0) (Fin 0)).
  rewrite fig_scene_of. apply update_plot_scene_of.
Defined.

(** X11.  Events on the two sliders commute: moving the high-risk slider
    and then the low-risk slider leads to the same session as moving them in
    the other order. *)
Theorem slider_events_commute
  (P : Params) (st st1 st2 : Session) (v w : num) :
  on_slider P st s_slider_id v = Some st1 ->
  on_slider P st1 g_slider_id w = Some st2 ->
  exists st1' : Session,
    on_slider P st g_slider_id w = Some st1' /\
    on_slider P st1' s_slider_id v = Some st2.
Proof.
  unfold on_slider. intros H1 H2.
  destruct (update_plot P (scene st) v (g_value st)) as [f1 |] eqn:E1;
    [| discriminate].
  injection H1 as <-. cbn [scene s_value g_value] in H2.
  destruct (update_plot P f1 v w) as [f2 |] eqn:E2; [| discriminate].
  injection H2 as <-.
  rewrite (update_plot_after_update P (scene st) f1 v (g_value st) v w E1) in E2.
  apply update_plot_some in E1. destruct E1 as (l & a & b & Hd & _).
  destruct st as [[d xr yr] sv gv].
  cbn [scene go.data s_value g_value go.xaxis_range go.yaxis_range] in *.
  subst d. rewrite update_plot_last_two in *.
  eexists. split; [reflexivity |]. cbn [scene s_value g_value].
  injection E2 as <-.
  rewrite update_plot_last_two, !set_y_set_y. reflexivity.
Qed.

Lemma slider_events_commute_witness :
  exists st1' : Session,
    on_slider default_params (session0 default_params) g_slider_id (Fin (-1))
    = Some st1' /\
    on_slider default_params st1' s_slider_id (Fin 0)
    = Some (mkSession (scene_of default_params (Fin 0) (Fin (-1)))
              (Fin 0) (Fin (-1))).
Proof.
  assert (Hr : reachable default_params (session0 default_params))
    by (apply reach_start, startup_default).
  apply (slider_events_commute default_params (session0 default_params)
           (mkSession
              (scene_of default_params (Fin 0)
                 (g_value (session0 default_params)))
              (Fin 0) (g_value (session0 default_params)))).
  - apply (on_slider_reachable default_params _ s_slider_id (Fin 0) Hr).
  - unfold on_slider. cbn [scene s_value g_value].
    now rewrite update_plot_scene_of.
Defined.

(** ** Invariants of the scene *)

Lemma contract_possibility_line_lengths (W0 L probability : num) :
  List.length (fst (contract_possibility_line W0 L probability)) = 100%nat /\
  List.length (snd (contract_possibility_line W0 L probability)) = 100%nat.
Proof.
  rewrite contract_possibility_line_maps. cbn [fst snd].
  now rewrite !length_map, linspace_length.
Qed.

Lemma indifference_curve_length (xs : list num) (u p a : num) :
  List.length (indifference_curve xs u p a) = List.length xs.
Proof. apply length_map. Qed.

(** X12.  Every trace of every scene reached from start-up is a well-formed
    curve: it has as many [y] values as [x] values. *)
Theorem reachable_traces_well_formed
  (P : Params) (st : Session) (t : go.Scatter) :
  reachable P st ->
  In t (go.data (scene st)) ->
  List.length (go.x t) = List.length (go.y t).
Proof.
  intros Hr Hin. rewrite (reachable_scene P st Hr) in Hin.
  unfold scene_of, static_traces, fig in Hin.
  cbn [go.data firstn app In] in Hin.
  destruct Hin as [<- | [<- | [<- | [<- | [<- | [<- | [<- | [<- | [<- | []]]]]]]]]];
    cbn [go.x go.y];
    unfold contract_line_s, contract_line_g, pooled_line, pooled_contract_line;
    first
      [ now rewrite indifference_curve_length
      | match goal with
        | |- context [contract_possibility_line ?w ?l ?p] =>
            destruct (contract_possibility_line_lengths w l p) as [-> ->];
            reflexivity
        end
      | reflexivity ].
Qed.

Lemma reachable_traces_well_formed_witness :
  List.length (go.x (go.mkScatter [Fin 0; Fin 150] [Fin 0; Fin 150]
                       "lines" "Certainty Line"))
  = List.length (go.y (go.mkScatter [Fin 0; Fin 150] [Fin 0; Fin 150]
                         "lines" "Certainty Line")).
Proof.
  apply (reachable_traces_well_formed default_params
           (session0 default_params)).
  - apply reach_start, startup_default.
  - unfold session0, fig. cbn [scene go.data In]. do 3 right. left. reflexivity.
Defined.

(** X13.  For valid parameters the x grid is strictly increasing and stays
    within [0, W0 + 50]. *)
Theorem x_vals_strictly_increasing
  (P : Params) (i j : nat) (a b : num) :
  valid_params P ->
  (i < j)%nat ->
  nth_error (x_vals P) i = Some a ->
  nth_error (x_vals P) j = Some b ->
  exists xa xb : R,
    a = Fin xa /\ b = Fin xb /\
    0 <= xa /\ xa < xb /\ xb <= IZR (W0 P + 50).
Proof.
  intros HP Hij Ha Hb.
  assert (Hj : (j < Z.to_nat (W0 P + 50))%nat).
  { rewrite <- (linspace_length (Fin 0) (of_Z (W0 P + 50))
                  (Z.to_nat (W0 P + 50))).
    apply nth_error_Some. unfold x_vals in Hb. rewrite Hb. discriminate. }
  rewrite (x_vals_nth P HP i) in Ha by lia.
  rewrite (x_vals_nth P HP j) in Hb by exact Hj.
  injection Ha as <-. injection Hb as <-.
  do 2 eexists. split; [reflexivity |]. split; [reflexivity |].
  pose proof (W0_positive P HP) as HW.
  assert (Hn : 0 < IZR (W0 P + 49)) by (apply IZR_lt; lia).
  assert (Hn1 : IZR (W0 P + 50) = IZR (W0 P + 49) + 1)
    by (rewrite <- plus_IZR; f_equal; lia).
  assert (Hstep : 0 < IZR (W0 P + 50) / IZR (W0 P + 49))
    by (apply Rdiv_lt_0_compat; lra).
  assert (Hjn : INR j <= IZR (W0 P + 49)).
  { rewrite INR_IZR_INZ. apply IZR_le. lia. }
  pose proof (pos_INR i) as Hi0. apply lt_INR in Hij.
  split; [nra |]. split; [nra |].
  replace (IZR (W0 P + 50))
    with (IZR (W0 P + 49) * (IZR (W0 P + 50) / IZR (W0 P + 49))) at 2
    by (field; lra).
  nra.
Qed.

Lemma x_vals_strictly_increasing_witness :
  exists xa xb : R,
    Fin (INR 0 * (IZR (100 + 50) / IZR (100 + 49))) = Fin xa /\
    Fin (IZR (100 + 50)) = Fin xb /\
    0 <= xa /\ xa < xb /\ xb <= IZR (100 + 50).
Proof.
  apply (x_vals_strictly_increasing default_params 0 149 _ _
           default_params_valid).
  - lia.
  - apply (x_vals_nth default_params default_params_valid 0). vm_compute. lia.
  - apply (x_vals_last default_params default_params_valid).
Defined.

(** ** Where the formula leaves the reals *)

Lemma npow_inf_negative (i : num) (y : R) :
  i = PInf \/ i = NInf -> y < 0 -> (i ** Fin y)%num = Fin 0.
Proof.
  intros Hi Hy. unfold npow.
  destruct (Req_dec_T y 0) as [E | _]; [lra |].
  destruct Hi as [-> | ->];
    destruct (Rlt_dec 0 y) as [H | _]; solve [lra | reflexivity].
Qed.

Lemma inv_exponent_negative (a : R) : 1 < a -> 1 / (1 - a) < 0.
Proof.
  intros Ha. unfold Rdiv. rewrite Rmult_1_l.
  apply Rinv_lt_0_compat. lra.
Qed.

Lemma indifference_curve_at_zero (u : num) (t p a : R) :
  (u * (Fin 1 - Fin a))%num = Fin t ->
  0 < p < 1 -> 1 < a ->
  indifference_curve_at u (Fin p) (Fin a) (Fin 0) = Fin 0.
Proof.
  intros Ht [Hp0 Hp1] Ha. unfold indifference_curve_at. rewrite Ht.
  fin_arith.
  assert (Hpow : (Fin 0 ** Fin (1 - a))%num = PInf).
  { unfold npow.
    destruct (Req_dec_T (1 - a) 0); [lra |].
    destruct (Rlt_dec 0 0); [lra |].
    destruct (Req_dec_T 0 0); [| lra].
    destruct (Rlt_dec 0 (1 - a)); [lra | reflexivity]. }
  rewrite Hpow.
  assert (Hmul : (Fin (1 - p) * PInf)%num = PInf).
  { unfold nmul, inf_times.
    destruct (Req_dec_T (1 - p) 0); [lra |].
    destruct (Rlt_dec 0 (1 - p)); [reflexivity | lra]. }
  rewrite Hmul. cbn [nsub nadd nopp].
  assert (Hdiv : (NInf / Fin p)%num = NInf).
  { unfold ndiv. destruct (Rlt_dec p 0); [lra | reflexivity]. }
  rewrite Hdiv, ndiv_fin by lra.
  apply npow_inf_negative; [now right | now apply inv_exponent_negative].
Qed.



(** X16.  A zero probability does not raise: the division by [probability]
    gives an infinity or [NaN], and at every element [x > 0], for
    [alpha > 1], the value of [indifference_curve] is then 0 or [NaN]. *)
Theorem indifference_curve_zero_probability
  (xs : list num) (i : nat) (x u a : R) :
  nth_error xs i = Some (Fin x) -> 0 < x -> 1 < a ->
  exists y : num,
    nth_error (indifference_curve xs (Fin u) (Fin 0) (Fin a)) i = Some y /\
    (y = Fin 0 \/ y = NaN).
Proof.
  intros Hi Hx Ha.
  rewrite (indifference_curve_nth xs i (Fin x)) by exact Hi.
  eexists. split; [reflexivity |].
  unfold indifference_curve_at.
  rewrite !nsub_fin, npow_pos by lra. fin_arith.
  rewrite (ndiv_fin 1) by lra.
  pose proof (inv_exponent_negative a Ha) as Hneg.
  set (n := u * (1 - a) - (1 - 0) * Rpower x (1 - a)).
  unfold ndiv.
  destruct (Req_dec_T 0 0) as [_ | N]; [| lra].
  destruct (Req_dec_T n 0) as [_ | _].
  - right. unfold npow.
    destruct (Req_dec_T (1 / (1 - a)) 0); [lra | reflexivity].
  - left. destruct (Rlt_dec 0 n);
      apply npow_inf_negative; auto.
Qed.

Lemma indifference_curve_zero_probability_witness :
  exists y : num,
    nth_error (indifference_curve [Fin 100] (Fin (-1)) (Fin 0) (Fin 3)) 0
    = Some y /\
    (y = Fin 0 \/ y = NaN).
Proof.
  apply (indifference_curve_zero_probability [Fin 100] 0 100 (-1) 3).
  - reflexivity.
  - lra.
  - lra.
Defined.
